(** * manyhow: error model, output normalization and entry-point orchestration

    A shallow embedding of [src/src/error.rs], [src/src/lib.rs] and
    [src/src/parse_to_tokens.rs].

    - A [TokenStream] is a list of tokens; the conversions between
      [proc_macro::TokenStream], [proc_macro2::TokenStream] and any
      [AnyTokenStream] ([into], [From]) are the identity on that list.
    - A Rust panic ([expect], [unreachable!]) is [None] of the [option]
      monad [M]; every computation that renders an [ErrorMessage] lives in
      it, since [Display for ErrorMessage] may panic.
    - [Box<dyn ToTokensError>] is the closed variant type [diag]: the
      implementors of [ToTokensError] in the crate ([ErrorMessage],
      [SilentError], [Error], a [syn] error rendered by its own
      [to_compile_error]). *)

From Stdlib Require Import List String Ascii Bool Arith Lia.
Import ListNotations.
Open Scope string_scope.

(** ** Tokens *)

Set Warnings "-register-all".

Inductive token : Type :=
| Ident (s : string)
| Punct (s : string)
| Lit (s : string)
| Brace (ts : list token).

Definition TokenStream := list token.

(** ** The panic monad *)

Definition M (A : Type) := option A.

Definition ret {A} (a : A) : M A := Some a.

Definition bind {A B} (m : M A) (k : A -> M B) : M B :=
  match m with
  | Some a => k a
  | None => None
  end.

Notation "'let*' x ':=' m 'in' k" := (bind m (fun x => k))
  (at level 200, x name, m at level 100, k at level 200).

(** ** Strings as [std::str] handles them

    A Rust [String] is its UTF-8 encoding, one [ascii] per byte, so
    [String.length] is [str::len]. *)

(** The UTF-8 encodings of the characters with Unicode's [White_Space]
    property, the predicate [char::is_whitespace]: U+0009 to U+000D,
    U+0020, U+0085, U+00A0, U+1680, U+2000 to U+200A, U+2028, U+2029,
    U+202F, U+205F and U+3000. *)
Definition whitespace_utf8 : list (list ascii) :=
  [ ["009"]; ["010"]; ["011"]; ["012"]; ["013"]; ["032"];
    ["194"; "133"]; ["194"; "160"];
    ["225"; "154"; "128"];
    ["226"; "128"; "128"]; ["226"; "128"; "129"]; ["226"; "128"; "130"];
    ["226"; "128"; "131"]; ["226"; "128"; "132"]; ["226"; "128"; "133"];
    ["226"; "128"; "134"]; ["226"; "128"; "135"]; ["226"; "128"; "136"];
    ["226"; "128"; "137"]; ["226"; "128"; "138"];
    ["226"; "128"; "168"]; ["226"; "128"; "169"]; ["226"; "128"; "175"];
    ["226"; "129"; "159"];
    ["227"; "128"; "128"] ]%char.

Fixpoint list_ascii_eqb (a b : list ascii) : bool :=
  match a, b with
  | [], [] => true
  | x :: a', y :: b' => Ascii.eqb x y && list_ascii_eqb a' b'
  | _, _ => false
  end.

(** [char::is_whitespace] of the character encoded by the bytes [bs]. *)
Definition is_whitespace (bs : list ascii) : bool :=
  existsb (list_ascii_eqb bs) whitespace_utf8.

(** [str::trim_end] on the reversed bytes: drop the last character while
    it is whitespace.  In valid UTF-8 the last one, two or three bytes
    that form a whitespace encoding are exactly the last character. *)
Fixpoint drop_ws (l : list ascii) : list ascii :=
  match l with
  | [] => []
  | c :: l1 =>
      if is_whitespace [c] then drop_ws l1 else
      match l1 with
      | [] => l
      | b :: l2 =>
          if is_whitespace [b; c] then drop_ws l2 else
          match l2 with
          | [] => l
          | a :: l3 => if is_whitespace [a; b; c] then drop_ws l3 else l
          end
      end
  end.

Definition trim_end (s : string) : string :=
  string_of_list_ascii (rev (drop_ws (rev (list_ascii_of_string s)))).

Definition newline : ascii := ascii_of_nat 10.
Definition carriage_return : ascii := ascii_of_nat 13.

(** The end of a line of [str::lines]: a ["\n"] is removed, and then a
    ["\r"] right before it. *)
Definition strip_cr (line : list ascii) : list ascii :=
  match rev line with
  | c :: rest => if Ascii.eqb c carriage_return then rev rest else line
  | [] => []
  end.

(** [str::lines] is [split_inclusive('\n')] with the terminator stripped:
    no line after a final ["\n"], and no line at all for [""].  [cur] is
    the current line, reversed. *)
Fixpoint lines_aux (s : list ascii) (cur : list ascii) : list (list ascii) :=
  match s with
  | [] => match cur with [] => [] | _ => [rev cur] end
  | c :: s' =>
      if Ascii.eqb c newline then strip_cr (rev cur) :: lines_aux s' []
      else lines_aux s' (c :: cur)
  end.

Definition lines (s : string) : list string :=
  map string_of_list_ascii (lines_aux (list_ascii_of_string s) []).

Fixpoint spaces (n : nat) : string :=
  match n with
  | 0 => ""
  | S n' => String " " (spaces n')
  end.

Definition nl : string := String newline EmptyString.

Fixpoint concat_str (l : list string) : string :=
  match l with
  | [] => ""
  | s :: l' => s ++ concat_str l'
  end.

(** ** [ErrorMessage] *)

(** A [Span] is an opaque location handle. *)
Definition Span := nat.
Definition call_site : Span := 0.

Record ErrorMessage : Type := mkErrorMessage {
  span_start : Span;
  span_end : Span;
  msg : string;
  attachments : list (string * string)
}.

(** [ErrorMessage::new] (with a single [Span], whose range is [span..span]) *)
Definition ErrorMessage_new (span : Span) (m : string) : ErrorMessage :=
  mkErrorMessage span span m [].

Definition ErrorMessage_call_site (m : string) : ErrorMessage :=
  ErrorMessage_new call_site m.

(** [ErrorMessage::attachment]: push onto the attachments, consuming [self] *)
Definition attachment (e : ErrorMessage) (label : string) (m : string)
  : ErrorMessage :=
  mkErrorMessage (span_start e) (span_end e) (msg e)
    (attachments e ++ [(label, m)]).

Definition error (e : ErrorMessage) m := attachment e "error" m.
Definition warning (e : ErrorMessage) m := attachment e "warning" m.
Definition note (e : ErrorMessage) m := attachment e "note" m.
Definition help (e : ErrorMessage) m := attachment e "help" m.

(** One iteration of the [for (label, attachment)] loop of [fmt]: the
    [expect] on the first line panics when there is none. *)
Definition fmt_attachment (a : string * string) : M string :=
  let (label, text) := a in
  match lines text with
  | [] => None
  | first :: rest =>
      ret ("  = " ++ label ++ ": " ++ first ++ nl ++
           concat_str
             (map (fun line =>
                     "    " ++ spaces (String.length label) ++ "  " ++ line ++ nl)
                  rest))
  end.

Fixpoint fmt_attachments (l : list (string * string)) : M string :=
  match l with
  | [] => ret ""
  | a :: l' =>
      let* s := fmt_attachment a in
      let* s' := fmt_attachments l' in
      ret (s ++ s')
  end.

(** [impl Display for ErrorMessage], i.e. [to_string] *)
Definition ErrorMessage_to_string (e : ErrorMessage) : M string :=
  let* rest := fmt_attachments (attachments e) in
  ret (trim_end (msg e) ++
       (match attachments e with [] => "" | _ => nl ++ nl end) ++ rest).

(** [::core::compile_error! { "msg" }] *)
Definition compile_error (s : string) : TokenStream :=
  [Punct "::"; Ident "core"; Punct "::"; Ident "compile_error"; Punct "!";
   Brace [Lit s]].

(** [impl ToTokensError for ErrorMessage] *)
Definition ErrorMessage_to_tokens (e : ErrorMessage) : M TokenStream :=
  let* s := ErrorMessage_to_string e in
  ret (compile_error s).

(** From here on [++] is list concatenation; strings use [%string]. *)
Open Scope list_scope.

(** ** [Result] *)

Inductive result (T E : Type) : Type :=
| Ok (t : T)
| Err (e : E).
Arguments Ok {T E} t.
Arguments Err {T E} e.

(** ** [Box<dyn ToTokensError>] and [Error] *)

Inductive diag : Type :=
| DMessage (m : ErrorMessage)   (** an [ErrorMessage] *)
| DSilent                       (** [SilentError] *)
| DSyn (ts : TokenStream)       (** a [syn::Error]: its [to_compile_error] *)
| DError (es : list diag).      (** an [Error] *)

(** [pub struct Error(Vec<Box<dyn ToTokensError>>)] *)
Definition Error := list diag.

(** [ToTokensError::to_tokens] for each implementor; [Error] renders its
    elements in order. *)
Fixpoint diag_to_tokens (d : diag) : M TokenStream :=
  match d with
  | DMessage m => ErrorMessage_to_tokens m
  | DSilent => ret []
  | DSyn ts => ret ts
  | DError es =>
      (fix go (l : list diag) : M TokenStream :=
         match l with
         | [] => ret []
         | d' :: l' =>
             let* t := diag_to_tokens d' in
             let* t' := go l' in
             ret (t ++ t')
         end) es
  end.

(** [impl ToTokensError for Error] *)
Fixpoint Error_to_tokens (e : Error) : M TokenStream :=
  match e with
  | [] => ret []
  | d :: l =>
      let* t := diag_to_tokens d in
      let* t' := Error_to_tokens l in
      ret (t ++ t')
  end.

(** The inherent [Error::from(error: impl ToTokensError)]: one boxed
    element, whatever [error] is (also an [Error] or a [SilentError]). *)
Definition Error_from (d : diag) : Error := [d].

(** The [From<_> for Error] conversions ([.into()], [?]): [SilentError]
    gives the empty collection, an [Error] converts by std's
    [From<T> for T], the others call [Self::from], i.e. [Error_from]. *)
Definition Error_From (d : diag) : Error :=
  match d with
  | DMessage m => Error_from (DMessage m)
  | DSilent => []
  | DSyn ts => Error_from (DSyn ts)
  | DError es => es
  end.

(** [Error::push] *)
Definition push (e : Error) (d : diag) : Error := e ++ [d].

(** [impl Extend<I> for Error] *)
Definition extend (e : Error) (ds : list diag) : Error := e ++ ds.

(** ** [Emitter] *)

Definition Emitter := list diag.

Definition Emitter_new : Emitter := [].

(** [Emitter::emit] *)
Definition emit (em : Emitter) (d : diag) : Emitter := em ++ [d].

Definition is_empty {A} (l : list A) : bool :=
  match l with [] => true | _ => false end.

(** [Emitter::clear] *)
Definition clear (em : Emitter) : Emitter := [].

(** [Emitter::into_result(&mut self)]: the returned value and the new
    state of [self] ([mem::take] leaves an empty vector behind). *)
Definition into_result (em : Emitter) : result unit Error * Emitter :=
  if is_empty em then (Ok tt, em) else (Err em, []).

(** [Emitter::to_tokens] *)
Fixpoint Emitter_to_tokens (em : Emitter) : M TokenStream :=
  match em with
  | [] => ret []
  | d :: l =>
      let* t := diag_to_tokens d in
      let* t' := Emitter_to_tokens l in
      ret (t ++ t')
  end.

(** ** [MacroOutput] *)

(** A handler's return type: any token stream, or a [Result<T, E>] with
    [T : MacroOutput] and [E : ToTokensError]. *)
Inductive macro_output : Type :=
| Tokens (t : TokenStream)
| ROk (o : macro_output)
| RErr (e : diag).

(** [MacroOutput::convert]: [Ok(self.into())] for a token stream, and
    [self.map_err(Error::from).and_then(MacroOutput::convert)] for a
    [Result]. *)
Fixpoint convert (o : macro_output) : result TokenStream Error :=
  match o with
  | Tokens t => Ok t
  | ROk o' => convert o'
  | RErr e => Err (Error_from e)
  end.

(** ** Handlers ([FunctionMacroHandler] and its siblings)

    The four [macro_input_impl!] instances: a closure over the inputs
    [I] that may also take [&mut Dummy] and then [&mut Emitter].  The
    [&mut] parameters are threaded as state. *)
Inductive Handler (I O : Type) : Type :=
| WithDummyEmitter (f : I -> TokenStream -> Emitter -> O * TokenStream * Emitter)
| WithDummy (f : I -> TokenStream -> O * TokenStream)
| WithEmitter (f : I -> Emitter -> O * Emitter)
| Plain (f : I -> O).
Arguments WithDummyEmitter {I O} f.
Arguments WithDummy {I O} f.
Arguments WithEmitter {I O} f.
Arguments Plain {I O} f.

(** [$MacroInput::call(self, inputs, dummy, emitter)] *)
Definition call {I O} (h : Handler I O) (i : I) (dummy : TokenStream)
  (emitter : Emitter) : O * TokenStream * Emitter :=
  match h with
  | WithDummyEmitter f => f i dummy emitter
  | WithDummy f => let '(o, d) := f i dummy in (o, d, emitter)
  | WithEmitter f => let '(o, em) := f i emitter in (o, dummy, em)
  | Plain f => (f i, dummy, emitter)
  end.

(** ** The entry-point functions of [lib.rs] *)

(** The common tail of [function], [attribute] and [derive]. *)
Definition finish (output : macro_output) (tokens : TokenStream)
  (emitter : Emitter) : M TokenStream :=
  let* tokens :=
    match convert output with
    | Ok t => ret t
    | Err e =>
        let* r := Error_to_tokens e in
        ret (tokens ++ r)
    end in
  let* r := Emitter_to_tokens emitter in
  ret (tokens ++ r).

(** [pub fn function(input, input_as_dummy, body)] *)
Definition function (input : TokenStream) (input_as_dummy : bool)
  (body : Handler TokenStream macro_output) : M TokenStream :=
  let tokens := if input_as_dummy then input else [] in
  let emitter := Emitter_new in
  let '(output, tokens, emitter) := call body input tokens emitter in
  finish output tokens emitter.

(** [pub fn attribute(input, item, item_as_dummy, body)]; the two inputs
    of the handler are passed as a pair. *)
Definition attribute (input item : TokenStream) (item_as_dummy : bool)
  (body : Handler (TokenStream * TokenStream) macro_output) : M TokenStream :=
  let tokens := if item_as_dummy then item else [] in
  let emitter := Emitter_new in
  let '(output, tokens, emitter) := call body (input, item) tokens emitter in
  finish output tokens emitter.

(** [pub fn derive(item, body)] *)
Definition derive (item : TokenStream)
  (body : Handler TokenStream macro_output) : M TokenStream :=
  let tokens := [] in
  let emitter := Emitter_new in
  let '(output, tokens, emitter) := call body item tokens emitter in
  finish output tokens emitter.

(** ** The macro versions: [parse_to_tokens.rs] and [__macro_handler!] *)

(** The [ErrorMessage] built by
    [error_message!("while parsing attribute argument (`#[... (...)]`)")]. *)
Definition attr_note_text : string :=
  "while parsing attribute argument (`#[... (...)]`)".

Definition attr_note : ErrorMessage := ErrorMessage_call_site attr_note_text.

(** [ManyhowParse::manyhow_parse].  [parse] is the input type's parser:
    [Ok] of the tokens for a token-stream type ([WhatType<T>]), and for a
    [syn::parse::Parse] type [syn2::parse2] with its error already
    turned into tokens by [into_compile_error] ([&WhatType<T>]). *)
Definition manyhow_parse {A} (parse : TokenStream -> result A TokenStream)
  (input : TokenStream) (attr : bool) : M (result A TokenStream) :=
  let empty := is_empty input in
  match parse input with
  | Ok a => ret (Ok a)
  | Err e =>
      if attr && empty then
        let* n := ErrorMessage_to_tokens attr_note in
        ret (Err (e ++ n))
      else ret (Err e)
  end.

(** The parser of a token-stream input. *)
Definition parse_tokens (input : TokenStream) : result TokenStream TokenStream :=
  Ok input.

(** What a handler used through the macros returns: a value implementing
    [ToTokens] (its tokens) or a [Result<T, E>] of such a value and an
    [E : ToTokensError]. *)
Inductive mac_output : Type :=
| MValue (t : TokenStream)
| MResult (r : result TokenStream diag).

(** [ManyhowTry::manyhow_try]: a [Result] as it is, anything else [Ok]. *)
Definition manyhow_try (o : mac_output) : result TokenStream diag :=
  match o with
  | MValue t => Ok t
  | MResult r => r
  end.

(** [unwrap_or_default] of the [Option] dummy *)
Definition unwrap_or_default (d : option TokenStream) : TokenStream :=
  match d with Some t => t | None => [] end.

(** [transparent_handlers!]: the shared body once the inputs are there. *)
Definition transparent_call {I} (i : I) (dummy : TokenStream)
  (body : Handler I mac_output)
  : M (result (mac_output * TokenStream * TokenStream) TokenStream) :=
  let emitter := Emitter_new in
  let '(output, dummy, emitter) := call body i dummy emitter in
  let* tokens := Emitter_to_tokens emitter in
  ret (Ok (output, tokens, dummy)).

(** [function_transparent] *)
Definition function_transparent {I} (input : result I TokenStream)
  (dummy : option TokenStream) (body : Handler I mac_output)
  : M (result (mac_output * TokenStream * TokenStream) TokenStream) :=
  let dummy := unwrap_or_default dummy in
  match input with
  | Err tokens => ret (Err (dummy ++ tokens))
  | Ok i => transparent_call i dummy body
  end.

(** [derive_transparent]: no dummy parameter, the dummy starts empty. *)
Definition derive_transparent {I} (item : result I TokenStream)
  (body : Handler I mac_output)
  : M (result (mac_output * TokenStream * TokenStream) TokenStream) :=
  let dummy := [] in
  match item with
  | Err tokens => ret (Err (dummy ++ tokens))
  | Ok i => transparent_call i dummy body
  end.

(** [attribute_transparent]: the inputs are checked in order. *)
Definition attribute_transparent {A B} (input : result A TokenStream)
  (item : result B TokenStream) (dummy : option TokenStream)
  (body : Handler (A * B) mac_output)
  : M (result (mac_output * TokenStream * TokenStream) TokenStream) :=
  let dummy := unwrap_or_default dummy in
  match input with
  | Err tokens => ret (Err (dummy ++ tokens))
  | Ok a =>
      match item with
      | Err tokens => ret (Err (dummy ++ tokens))
      | Ok b => transparent_call (a, b) dummy body
      end
  end.

(** The [match] of [__macro_handler!] on the transparent handler's result. *)
Definition macro_handler_finish
  (r : result (mac_output * TokenStream * TokenStream) TokenStream)
  : M TokenStream :=
  match r with
  | Err tokens => ret tokens
  | Ok (output, tokens, dummy) =>
      match manyhow_try output with
      | Err error =>
          let tokens := dummy ++ tokens in
          let* t := diag_to_tokens error in
          ret (tokens ++ t)
      | Ok output => ret (tokens ++ output)
      end
  end.

(** [function!(input, body)], and [function!(#[as_dummy] input, body)]
    when [as_dummy] is [true]. *)
Definition function_macro {I} (parse : TokenStream -> result I TokenStream)
  (as_dummy : bool) (input : TokenStream) (body : Handler I mac_output)
  : M TokenStream :=
  let* pi := manyhow_parse parse input false in
  let* r := function_transparent pi (if as_dummy then Some input else None) body in
  macro_handler_finish r.

(** [attribute!(input, item, body)], and [attribute!(input, #[as_dummy]
    item, body)] when [as_dummy] is [true]; only [input] is parsed with
    [#attr=true]. *)
Definition attribute_macro {A B} (parse_input : TokenStream -> result A TokenStream)
  (parse_item : TokenStream -> result B TokenStream) (input : TokenStream)
  (as_dummy : bool) (item : TokenStream) (body : Handler (A * B) mac_output)
  : M TokenStream :=
  let* pi := manyhow_parse parse_input input true in
  let* pit := manyhow_parse parse_item item false in
  let* r := attribute_transparent pi pit (if as_dummy then Some item else None) body in
  macro_handler_finish r.

(** [derive!(item, body)] *)
Definition derive_macro {I} (parse : TokenStream -> result I TokenStream)
  (item : TokenStream) (body : Handler I mac_output) : M TokenStream :=
  let* pi := manyhow_parse parse item false in
  let* r := derive_transparent pi body in
  macro_handler_finish r.

(** ** Sample values *)

Definition struct_X : TokenStream := [Ident "struct"; Ident "X"; Punct ";"].

Definition msg_d (s : string) : diag := DMessage (ErrorMessage_call_site s).

(** The primary output of [function], [attribute] and [derive], before
    the emitter's diagnostics are appended. *)
Definition primary_output (output : macro_output) (tokens : TokenStream)
  : M TokenStream :=
  match convert output with
  | Ok t => ret t
  | Err e =>
      let* r := Error_to_tokens e in
      ret (tokens ++ r)
  end.

(** What [__macro_handler!] returns once the handler has run: the
    emitter's tokens come first on success, and between the dummy and the
    error on failure. *)
Definition macro_output_tokens (output : mac_output) (dummy : TokenStream)
  (emitter : Emitter) : M TokenStream :=
  let* tokens := Emitter_to_tokens emitter in
  match manyhow_try output with
  | Err error =>
      let* t := diag_to_tokens error in
      ret (dummy ++ tokens ++ t)
  | Ok output => ret (tokens ++ output)
  end.

(** One attachment block of [Display for ErrorMessage] with the
    continuation indentation written as one width. *)
Definition attachment_block (a : string * string) : string :=
  let (label, text) := a in
  match lines text with
  | [] => ""
  | first :: rest =>
      "  = " ++ label ++ ": " ++ first ++ nl ++
      concat_str (map (fun line => spaces (String.length label + 6) ++ line ++ nl) rest)
  end%string.

(** ** More of [error.rs] *)

(** [impl Extend<I> for Emitter]; the [emit!] macro calls it with
    [iter::once]. *)
Definition Emitter_extend (em : Emitter) (ds : list diag) : Emitter := em ++ ds.

(** [ResultExt::attachment] for [E = ErrorMessage] *)
Definition result_attachment {T} (r : result T ErrorMessage) (label m : string)
  : result T ErrorMessage :=
  match r with
  | Ok t => Ok t
  | Err e => Err (attachment e label m)
  end.

(** [JoinToTokensError::join] *)
Definition join (self error : diag) : Error :=
  let this := Error_from self in
  push this error.

(** ** [span_ranged.rs]

    A [Range<Span>] is a pair of spans; a token stream, as far as its spans
    go, is the list of the spans of its token trees. *)

Definition SpanRange := (Span * Span)%type.

(** [Iterator::last] *)
Fixpoint last_opt {A} (l : list A) : option A :=
  match l with
  | [] => None
  | [x] => Some x
  | _ :: l' => last_opt l'
  end.

(** [impl SpanRanged for Span] *)
Definition span_range_span (s : Span) : SpanRange := (s, s).

(** [impl SpanRanged for (A, B)] and [impl SpanRanged for Range<T>]: the
    start of the first and the end of the second. *)
Definition span_range_pair (a b : SpanRange) : SpanRange := (fst a, snd b).

(** [impl SpanRanged for proc_macro::TokenStream], and
    [ToTokensToSpanRange]: the first tree's span (or [call_site]) and the
    span of the last of the remaining trees (or the first one). *)
Definition span_range_tokens (spans : list Span) : SpanRange :=
  let first := match spans with [] => call_site | s :: _ => s end in
  let rest := tl spans in
  let last := match last_opt rest with None => first | Some s => s end in
  (first, last).

(** [to_tokens_span_range] *)
Definition to_tokens_span_range (spans : list Span) : SpanRange :=
  span_range_tokens spans.

(** [ToTokensTupleToSpanRange for (A, B)]: the first span of [a] (or
    [call_site]) and the last span of [b] (or that first span). *)
Definition tuple_span_range (a b : list Span) : SpanRange :=
  let first := match a with [] => call_site | s :: _ => s end in
  let last := match last_opt b with None => first | Some s => s end in
  (first, last).

(** The same Rust value seen by [function] (a [MacroOutput]) and by
    [function!] (a [ManyhowTry] value): a token stream, or a
    [Result<TokenStream, E>]. *)
Definition mac_output_as_macro_output (o : mac_output) : macro_output :=
  match o with
  | MValue t => Tokens t
  | MResult (Ok t) => ROk (Tokens t)
  | MResult (Err e) => RErr e
  end.

(** ** Rendering lemmas *)

Lemma bind_ret {A} (m : M A) : bind m ret = m.
Proof. destruct m; reflexivity. Qed.

Lemma Error_to_tokens_app (l1 l2 : Error) :
  Error_to_tokens (l1 ++ l2) =
  (let* a := Error_to_tokens l1 in
   let* b := Error_to_tokens l2 in
   ret (a ++ b)).
Proof.
  induction l1 as [|d l1 IH]; simpl.
  - destruct (Error_to_tokens l2); reflexivity.
  - rewrite IH. destruct (diag_to_tokens d) as [t|]; simpl; [|reflexivity].
    destruct (Error_to_tokens l1) as [a|]; simpl; [|reflexivity].
    destruct (Error_to_tokens l2) as [b|]; simpl; [|reflexivity].
    rewrite app_assoc. reflexivity.
Qed.

Lemma diag_to_tokens_DError (es : list diag) :
  diag_to_tokens (DError es) = Error_to_tokens es.
Proof.
  induction es as [|d es IH]; simpl; [reflexivity|].
  simpl in IH. rewrite IH. reflexivity.
Qed.

Lemma Emitter_to_tokens_Error (em : Emitter) :
  Emitter_to_tokens em = Error_to_tokens em.
Proof. induction em as [|d em IH]; simpl; [|rewrite IH]; reflexivity. Qed.

Lemma Error_to_tokens_single (d : diag) :
  Error_to_tokens [d] = diag_to_tokens d.
Proof.
  simpl. destruct (diag_to_tokens d); simpl; [rewrite app_nil_r|]; reflexivity.
Qed.

(** The inherent [Error::from] and the [From] conversion render alike. *)
Lemma Error_from_From_tokens (d : diag) :
  Error_to_tokens (Error_from d) = Error_to_tokens (Error_From d).
Proof.
  unfold Error_from. rewrite Error_to_tokens_single.
  destruct d; unfold Error_From, Error_from.
  - rewrite Error_to_tokens_single. reflexivity.
  - reflexivity.
  - rewrite Error_to_tokens_single. reflexivity.
  - apply diag_to_tokens_DError.
Qed.

(** ** Entry points, unfolded *)

Lemma function_unfold (input : TokenStream) (flag : bool)
  (body : Handler TokenStream macro_output) o d em :
  call body input (if flag then input else []) Emitter_new = (o, d, em) ->
  function input flag body =
  (let* p := primary_output o d in
   let* r := Emitter_to_tokens em in
   ret (p ++ r)).
Proof. intros H. unfold function. rewrite H. reflexivity. Qed.

Lemma attribute_unfold (input item : TokenStream) (flag : bool)
  (body : Handler (TokenStream * TokenStream) macro_output) o d em :
  call body (input, item) (if flag then item else []) Emitter_new = (o, d, em) ->
  attribute input item flag body =
  (let* p := primary_output o d in
   let* r := Emitter_to_tokens em in
   ret (p ++ r)).
Proof. intros H. unfold attribute. rewrite H. reflexivity. Qed.

Lemma derive_unfold (item : TokenStream)
  (body : Handler TokenStream macro_output) o d em :
  call body item [] Emitter_new = (o, d, em) ->
  derive item body =
  (let* p := primary_output o d in
   let* r := Emitter_to_tokens em in
   ret (p ++ r)).
Proof. intros H. unfold derive. rewrite H. reflexivity. Qed.

Lemma manyhow_parse_ok {A} (parse : TokenStream -> result A TokenStream)
  input attr a :
  parse input = Ok a -> manyhow_parse parse input attr = ret (Ok a).
Proof. intros H. unfold manyhow_parse. rewrite H. reflexivity. Qed.

Lemma transparent_call_unfold {I} (i : I) dummy (body : Handler I mac_output)
  o d em :
  call body i dummy Emitter_new = (o, d, em) ->
  bind (transparent_call i dummy body) macro_handler_finish =
  macro_output_tokens o d em.
Proof.
  intros H. unfold transparent_call. rewrite H.
  unfold macro_output_tokens.
  destruct (Emitter_to_tokens em) as [tokens|]; simpl; [|reflexivity].
  destruct (manyhow_try o); [reflexivity|].
  simpl. destruct (diag_to_tokens e); simpl; [rewrite app_assoc|]; reflexivity.
Qed.

Lemma function_macro_unfold {I} (parse : TokenStream -> result I TokenStream)
  (flag : bool) (input : TokenStream) (body : Handler I mac_output) (i : I)
  (o : mac_output) (d : TokenStream) (em : Emitter) :
  parse input = Ok i ->
  call body i (if flag then input else []) Emitter_new = (o, d, em) ->
  function_macro parse flag input body = macro_output_tokens o d em.
Proof.
  intros Hp Hc. unfold function_macro.
  rewrite (manyhow_parse_ok _ _ _ _ Hp). simpl.
  rewrite <- (transparent_call_unfold _ _ _ _ _ _ Hc).
  destruct flag; reflexivity.
Qed.

Lemma attribute_macro_unfold {A B} (parse_input : TokenStream -> result A TokenStream)
  (parse_item : TokenStream -> result B TokenStream) (input : TokenStream)
  (flag : bool) (item : TokenStream) (body : Handler (A * B) mac_output)
  (a : A) (b : B) (o : mac_output) (d : TokenStream) (em : Emitter) :
  parse_input input = Ok a -> parse_item item = Ok b ->
  call body (a, b) (if flag then item else []) Emitter_new = (o, d, em) ->
  attribute_macro parse_input parse_item input flag item body =
  macro_output_tokens o d em.
Proof.
  intros Ha Hb Hc. unfold attribute_macro.
  rewrite (manyhow_parse_ok _ _ _ _ Ha), (manyhow_parse_ok _ _ _ _ Hb). simpl.
  rewrite <- (transparent_call_unfold _ _ _ _ _ _ Hc).
  destruct flag; reflexivity.
Qed.

Lemma derive_macro_unfold {I} (parse : TokenStream -> result I TokenStream)
  (item : TokenStream) (body : Handler I mac_output) (i : I)
  (o : mac_output) (d : TokenStream) (em : Emitter) :
  parse item = Ok i ->
  call body i [] Emitter_new = (o, d, em) ->
  derive_macro parse item body = macro_output_tokens o d em.
Proof.
  intros Hp Hc. unfold derive_macro.
  rewrite (manyhow_parse_ok _ _ _ _ Hp). simpl.
  rewrite <- (transparent_call_unfold _ _ _ _ _ _ Hc). reflexivity.
Qed.

(** ** String lemmas *)

Lemma string_length_append (s1 s2 : string) :
  String.length (s1 ++ s2)%string = String.length s1 + String.length s2.
Proof. induction s1 as [|c s1 IH]; simpl; [|rewrite IH]; reflexivity. Qed.

Lemma spaces_two (n : nat) (s : string) :
  (spaces n ++ "  " ++ s)%string = (spaces (n + 2) ++ s)%string.
Proof.
  induction n as [|n IH]; [reflexivity|].
  simpl in *. f_equal. exact IH.
Qed.

(** The continuation indent of [fmt]: [4 + label.len() + 2] spaces. *)
Lemma continuation_indent (n : nat) (s : string) :
  ("    " ++ spaces n ++ "  " ++ s)%string = (spaces (n + 6) ++ s)%string.
Proof.
  rewrite spaces_two.
  replace (n + 6) with (S (S (S (S (n + 2))))) by lia.
  reflexivity.
Qed.

Lemma lines_aux_cons (s cur : list ascii) :
  cur <> [] -> exists first rest, lines_aux s cur = first :: rest.
Proof.
  revert cur. induction s as [|c s IH]; intros cur Hcur; simpl.
  - destruct cur as [|x cur]; [contradiction|]. eauto.
  - destruct (Ascii.eqb c newline); [eauto|].
    apply IH. discriminate.
Qed.

Lemma lines_nonempty (t : string) :
  t <> EmptyString -> exists first rest, lines t = first :: rest.
Proof.
  intros Ht. destruct t as [|c t]; [contradiction|].
  unfold lines. simpl.
  destruct (Ascii.eqb c newline); [simpl; eauto|].
  destruct (lines_aux_cons (list_ascii_of_string t) [c]) as (x & r & Hx);
    [discriminate|].
  rewrite Hx. simpl. eauto.
Qed.

Lemma fmt_attachment_block (a : string * string) :
  snd a <> EmptyString -> fmt_attachment a = Some (attachment_block a).
Proof.
  destruct a as [label text]. simpl snd. intros Ht.
  destruct (lines_nonempty text Ht) as (first & rest & Hl).
  assert (Hm :
    map (fun line => "    " ++ spaces (String.length label) ++ "  " ++ line ++ nl)%string rest
    = map (fun line => spaces (String.length label + 6) ++ line ++ nl)%string rest).
  { apply map_ext. intros line. apply continuation_indent. }
  unfold fmt_attachment, attachment_block. cbv beta iota.
  rewrite Hl, Hm. reflexivity.
Qed.

Lemma fmt_attachments_blocks (l : list (string * string)) :
  Forall (fun a => snd a <> EmptyString) l ->
  fmt_attachments l = Some (concat_str (map attachment_block l)).
Proof.
  induction 1 as [|a l Ha Hl IH]; simpl; [reflexivity|].
  rewrite (fmt_attachment_block a Ha), IH. reflexivity.
Qed.

Lemma fmt_attachments_empty_text (l : list (string * string)) (label : string) :
  In (label, EmptyString) l -> fmt_attachments l = None.
Proof.
  induction l as [|a l IH]; simpl; [contradiction|].
  intros [-> | Hin]; [reflexivity|].
  rewrite (IH Hin). destruct (fmt_attachment a); reflexivity.
Qed.

Lemma attr_note_tokens :
  ErrorMessage_to_tokens attr_note = Some (compile_error attr_note_text).
Proof. vm_compute. reflexivity. Qed.

(** ** C1: the fallback buffer on failure *)

(** C1 (counterexample): the claim states [input ++ render(error)] for
    every failing body that leaves the dummy alone; a body that also emits
    a diagnostic through its [&mut Emitter] gets that diagnostic appended
    too. *)
Lemma C1_counterexample :
  function struct_X true
    (WithDummyEmitter (fun _ d em => (RErr (msg_d "fail"), d, emit em (msg_d "warn"))))
  <> (let* r := Error_to_tokens (Error_from (msg_d "fail")) in ret (struct_X ++ r)).
Proof. vm_compute. discriminate. Qed.

(** C1 (amended): with [input_as_dummy = true] the dummy starts as the
    input; when the body fails, the output is the dummy as the body left it
    (the input if untouched, the new tokens if it assigned them), then the
    rendered error, then the emitter's undrained diagnostics, which are
    nothing when the body emitted none. *)
Theorem C1_fallback (input : TokenStream) (body : Handler TokenStream macro_output)
  (o : macro_output) (d : TokenStream) (em : Emitter) (e : Error) :
  call body input input Emitter_new = (o, d, em) ->
  convert o = Err e ->
  function input true body =
    (let* r := Error_to_tokens e in
     let* r' := Emitter_to_tokens em in
     ret (d ++ r ++ r'))
  /\ (em = [] ->
      function input true body = (let* r := Error_to_tokens e in ret (d ++ r))).
Proof.
  intros Hc Ho.
  assert (Hf := function_unfold input true body o d em Hc).
  unfold primary_output in Hf. rewrite Ho in Hf.
  split.
  - rewrite Hf. destruct (Error_to_tokens e) as [r|]; simpl; [|reflexivity].
    destruct (Emitter_to_tokens em); simpl; [rewrite app_assoc|]; reflexivity.
  - intros ->. rewrite Hf. destruct (Error_to_tokens e) as [r|]; simpl; [|reflexivity].
    rewrite !app_nil_r. reflexivity.
Qed.

(** The override case at a concrete input: the body replaces the dummy
    [some input] by [another input] and fails. *)
Lemma C1_fallback_witness :
  let body : Handler TokenStream macro_output :=
    WithDummy (fun _ _ => (RErr (msg_d "fail"), [Ident "another"; Ident "input"])) in
  call body [Ident "some"; Ident "input"] [Ident "some"; Ident "input"] Emitter_new
    = (RErr (msg_d "fail"), [Ident "another"; Ident "input"], [])
  /\ convert (RErr (msg_d "fail")) = Err [msg_d "fail"]
  /\ function [Ident "some"; Ident "input"] true body =
     (let* r := Error_to_tokens [msg_d "fail"] in
      ret ([Ident "another"; Ident "input"] ++ r)).
Proof.
  intros body. split; [reflexivity|]. split; [reflexivity|].
  apply (C1_fallback [Ident "some"; Ident "input"] body (RErr (msg_d "fail"))
           [Ident "another"; Ident "input"] [] [msg_d "fail"]);
    reflexivity.
Defined.

(** ** C2: draining an [Emitter] *)

(** C2 (counterexample): an emitter that already holds [d0] returns
    [d0; d1; d2], not exactly [d1; d2]. *)
Lemma C2_counterexample :
  fst (into_result (emit (emit [msg_d "d0"] (msg_d "d1")) (msg_d "d2")))
  <> Err [msg_d "d1"; msg_d "d2"].
Proof. vm_compute. discriminate. Qed.

(** C2 (amended): after [emit(d1); emit(d2)] on an emitter holding [ds],
    [into_result] returns [Err] of [ds ++ [d1; d2]] (exactly [[d1; d2]]
    for a fresh emitter) and leaves the emitter empty, so a second call
    returns [Ok(())]; on an empty emitter it returns [Ok(())]. *)
Theorem C2_drain (ds : Emitter) (d1 d2 : diag) :
  into_result (emit (emit ds d1) d2) = (Err (ds ++ [d1; d2]), [])
  /\ fst (into_result (snd (into_result (emit (emit ds d1) d2)))) = Ok tt
  /\ into_result (emit (emit Emitter_new d1) d2) = (Err [d1; d2], [])
  /\ into_result Emitter_new = (Ok tt, Emitter_new).
Proof.
  assert (H : into_result (emit (emit ds d1) d2) = (Err (ds ++ [d1; d2]), [])).
  { unfold into_result, emit. rewrite <- app_assoc. destruct ds; reflexivity. }
  split; [exact H|]. split; [rewrite H; reflexivity|].
  split; reflexivity.
Qed.

(** ** C4: [SilentError] *)

(** C4: [From<SilentError> for Error] gives the empty collection, which
    renders to nothing; a function-like invocation on [struct X;] with the
    input as dummy and a body returning [Err(SilentError)] outputs exactly
    [struct X;], through [function] and through [function!]. *)
Theorem C4_silent :
  Error_From DSilent = []
  /\ Error_to_tokens (Error_From DSilent) = Some []
  /\ diag_to_tokens DSilent = Some []
  /\ function struct_X true (Plain (fun _ => RErr DSilent)) = Some struct_X
  /\ function_macro parse_tokens true struct_X (Plain (fun _ => MResult (Err DSilent)))
     = Some struct_X
  /\ (forall input : TokenStream,
        function input true (Plain (fun _ => RErr DSilent)) = Some input).
Proof.
  repeat split; try reflexivity.
  intros input. unfold function, finish. simpl. rewrite !app_nil_r. reflexivity.
Qed.

(** ** C5: output normalization *)

(** C5 (counterexample): [Err(SilentError)] normalizes through the
    inherent [Error::from] to a one-element collection, not to the empty
    collection of the [From] conversion. *)
Lemma C5_counterexample : convert (RErr DSilent) <> Err (Error_From DSilent).
Proof. simpl. discriminate. Qed.

(** C5 (amended): a token stream [t] and [Ok(t)] normalize to [Ok(t)];
    [Ok(o)] normalizes as [o]; [Err(e)] normalizes to [Err] of the inherent
    [Error::from(e)], the one-element collection [[e]], which renders as the
    [From] conversion of [e]; the [From] conversion of an [Error] is the
    identity. *)
Theorem C5_normalize (t : TokenStream) (o : macro_output) (e : diag) (es : Error) :
  convert (Tokens t) = Ok t
  /\ convert (ROk (Tokens t)) = Ok t
  /\ convert (ROk o) = convert o
  /\ convert (RErr e) = Err (Error_from e)
  /\ Error_from e = [e]
  /\ Error_to_tokens (Error_from e) = Error_to_tokens (Error_From e)
  /\ Error_From (DError es) = es.
Proof.
  repeat split; try reflexivity.
  apply Error_from_From_tokens.
Qed.

(** ** C7: [Error] rendering order *)

(** C7: the collection built from the empty one by [extend([d1, d2])] and
    [push(d3)] renders as the tokens of [d1], [d2] and [d3] concatenated in
    that order; [extend] and [push] keep the order of all earlier
    elements. *)
Theorem C7_order (d1 d2 d3 : diag) :
  Error_to_tokens (push (extend (Error_From DSilent) [d1; d2]) d3) =
    (let* a := diag_to_tokens d1 in
     let* b := diag_to_tokens d2 in
     let* c := diag_to_tokens d3 in
     ret (a ++ b ++ c))
  /\ (forall (e : Error) (ds1 ds2 : list diag) (d : diag),
        push (extend (extend e ds1) ds2) d = e ++ ds1 ++ ds2 ++ [d]
        /\ Error_to_tokens (push (extend e ds1) d) =
           (let* a := Error_to_tokens e in
            let* b := Error_to_tokens ds1 in
            let* c := diag_to_tokens d in
            ret (a ++ b ++ c))).
Proof.
  split.
  - simpl. destruct (diag_to_tokens d1); simpl; [|reflexivity].
    destruct (diag_to_tokens d2); simpl; [|reflexivity].
    destruct (diag_to_tokens d3); simpl; [|reflexivity].
    rewrite app_nil_r. reflexivity.
  - intros e ds1 ds2 d. split.
    + unfold push, extend. rewrite !app_assoc. reflexivity.
    + unfold push, extend. rewrite Error_to_tokens_app, Error_to_tokens_app,
        Error_to_tokens_single.
      destruct (Error_to_tokens e); simpl; [|reflexivity].
      destruct (Error_to_tokens ds1); simpl; [|reflexivity].
      destruct (diag_to_tokens d); simpl; [|reflexivity].
      rewrite app_assoc. reflexivity.
Qed.

(** ** C3: the emitter's diagnostics in the output *)

(** C3 (code bug): [function] appends the emitter's diagnostics after
    the primary output, as the claim says, but [function!] (through
    [transparent_handlers!] and [__macro_handler!]) renders them first on
    success and between the dummy and the error on failure.  Input
    [struct X;], a body that emits [w] and returns the input (success) or
    the error [e] (failure, input as dummy). *)
Theorem C3_macro_emitter_order :
  let w := msg_d "w" in
  let e := msg_d "e" in
  function struct_X false (WithEmitter (fun i em => (Tokens i, emit em w)))
    = (let* r := diag_to_tokens w in ret (struct_X ++ r))
  /\ function_macro parse_tokens false struct_X
       (WithEmitter (fun i em => (MValue i, emit em w)))
    = (let* r := diag_to_tokens w in ret (r ++ struct_X))
  /\ function_macro parse_tokens false struct_X
       (WithEmitter (fun i em => (MValue i, emit em w)))
    <> (let* r := diag_to_tokens w in ret (struct_X ++ r))
  /\ function struct_X true (WithEmitter (fun _ em => (RErr e, emit em w)))
    = (let* x := diag_to_tokens e in
       let* r := diag_to_tokens w in
       ret (struct_X ++ x ++ r))
  /\ function_macro parse_tokens true struct_X
       (WithEmitter (fun _ em => (MResult (Err e), emit em w)))
    = (let* r := diag_to_tokens w in
       let* x := diag_to_tokens e in
       ret (struct_X ++ r ++ x))
  /\ function_macro parse_tokens true struct_X
       (WithEmitter (fun _ em => (MResult (Err e), emit em w)))
    <> (let* x := diag_to_tokens e in
        let* r := diag_to_tokens w in
        ret (struct_X ++ x ++ r)).
Proof.
  intros w e.
  repeat split; vm_compute; first [reflexivity | discriminate].
Qed.

(** ** C6: [Display for ErrorMessage] *)

(** C6 (counterexample): the continuation line of a two-line [note] is
    indented by [4 + 2] plus the label length, ten spaces here, not the
    eight ([label length + 2 + 2]) that align under the colon. *)
Lemma C6_counterexample :
  ErrorMessage_to_string (note (ErrorMessage_call_site "m") ("a" ++ nl ++ "b")%string)
  <> Some ("m" ++ nl ++ nl ++ "  = note: a" ++ nl ++ spaces 8 ++ "b" ++ nl)%string.
Proof. vm_compute. congruence. Qed.

(** C6 (amended): when no attachment text is empty, the rendered string
    is the right-trimmed message, then a blank line if there is an
    attachment, then for each attachment in order ["  = label: first"] and
    each further line of its text indented by the label length plus 6
    spaces, which is the column where the first line's text starts. *)
Theorem C6_render (m : ErrorMessage) :
  Forall (fun a => snd a <> EmptyString) (attachments m) ->
  ErrorMessage_to_string m =
    Some (trim_end (msg m) ++
          (match attachments m with [] => "" | _ => nl ++ nl end) ++
          concat_str (map attachment_block (attachments m)))%string
  /\ (forall label : string,
        String.length ("  = " ++ label ++ ": ")%string = String.length label + 6).
Proof.
  intros Hf. split.
  - unfold ErrorMessage_to_string. rewrite (fmt_attachments_blocks _ Hf). reflexivity.
  - intros label. rewrite !string_length_append. simpl. lia.
Qed.

Lemma C6_render_witness :
  let m := help (note (ErrorMessage_call_site "m ") ("a" ++ nl ++ "b")%string) "c" in
  Forall (fun a => snd a <> EmptyString) (attachments m)
  /\ ErrorMessage_to_string m =
     Some (trim_end (msg m) ++
           (match attachments m with [] => "" | _ => nl ++ nl end) ++
           concat_str (map attachment_block (attachments m)))%string.
Proof.
  intros m.
  assert (Hf : Forall (fun a => snd a <> EmptyString) (attachments m)).
  { repeat constructor; simpl; discriminate. }
  split; [exact Hf|]. apply (proj1 (C6_render m Hf)).
Defined.

(** ** C9: an empty attachment panics *)

(** C9: an attachment whose text is [""] has no first line, so the
    [expect] of [fmt] panics: [to_string] and [to_tokens] both fail. *)
Theorem C9_empty_attachment_panics (m : ErrorMessage) (label : string) :
  In (label, EmptyString) (attachments m) ->
  ErrorMessage_to_string m = None /\ ErrorMessage_to_tokens m = None.
Proof.
  intros Hin. unfold ErrorMessage_to_tokens, ErrorMessage_to_string.
  rewrite (fmt_attachments_empty_text _ _ Hin). split; reflexivity.
Qed.

Lemma C9_empty_attachment_panics_witness :
  let m := note (help (ErrorMessage_call_site "m") "fine") "" in
  In ("note", EmptyString) (attachments m)
  /\ ErrorMessage_to_string m = None /\ ErrorMessage_to_tokens m = None.
Proof.
  intros m.
  assert (Hin : In ("note", EmptyString) (attachments m)) by (simpl; auto).
  split; [exact Hin|]. apply (C9_empty_attachment_panics m "note" Hin).
Defined.

(** ** C8: a failing input parse *)

(** C8: when an input of [function!], [derive!] or [attribute!] fails to
    parse, the output is the dummy followed by the parse error's tokens,
    whatever the body is (it is never called).  For [attribute!] the note
    [while parsing attribute argument] follows the error exactly when the
    failing input is the attribute argument and it is empty; a failing item
    gets no note.  ([function], [attribute] and [derive] take token streams,
    whose conversion cannot fail.) *)
Theorem C8_parse_failure :
  (forall (I : Type) (parse : TokenStream -> result I TokenStream) (flag : bool)
          (input : TokenStream) (body : Handler I mac_output) (e : TokenStream),
     parse input = Err e ->
     function_macro parse flag input body = Some ((if flag then input else []) ++ e))
  /\ (forall (I : Type) (parse : TokenStream -> result I TokenStream)
             (item : TokenStream) (body : Handler I mac_output) (e : TokenStream),
        parse item = Err e ->
        derive_macro parse item body = Some e)
  /\ (forall (A B : Type) (parse_input : TokenStream -> result A TokenStream)
             (parse_item : TokenStream -> result B TokenStream) (input : TokenStream)
             (flag : bool) (item : TokenStream) (body : Handler (A * B) mac_output)
             (e : TokenStream),
        parse_input input = Err e ->
        attribute_macro parse_input parse_item input flag item body =
        Some ((if flag then item else []) ++ e ++
              (if is_empty input then compile_error attr_note_text else [])))
  /\ (forall (A B : Type) (parse_input : TokenStream -> result A TokenStream)
             (parse_item : TokenStream -> result B TokenStream) (input : TokenStream)
             (flag : bool) (item : TokenStream) (body : Handler (A * B) mac_output)
             (a : A) (e : TokenStream),
        parse_input input = Ok a -> parse_item item = Err e ->
        attribute_macro parse_input parse_item input flag item body =
        Some ((if flag then item else []) ++ e)).
Proof.
  split; [|split; [|split]].
  - intros I parse flag input body e He.
    unfold function_macro, manyhow_parse. rewrite He.
    destruct flag; reflexivity.
  - intros I parse item body e He.
    unfold derive_macro, manyhow_parse. rewrite He. reflexivity.
  - intros A B parse_input parse_item input flag item body e He.
    unfold attribute_macro, manyhow_parse. rewrite He.
    destruct (is_empty input); simpl; rewrite ?attr_note_tokens; simpl;
      destruct (parse_item item); simpl; destruct flag; simpl;
      rewrite ?app_assoc, ?app_nil_r; reflexivity.
  - intros A B parse_input parse_item input flag item body a e Ha He.
    unfold attribute_macro, manyhow_parse. rewrite Ha, He.
    destruct flag; reflexivity.
Qed.

(** Scenario C: an empty attribute argument that fails to parse, with
    [#[as_dummy] fn test(){}]. *)
Lemma C8_parse_failure_witness :
  let item := [Ident "fn"; Ident "test"; Brace []; Brace []] in
  let synerr := compile_error "unexpected end of input" in
  let body : Handler (TokenStream * TokenStream) mac_output :=
    Plain (fun '(_, it) => MValue it) in
  (fun _ : TokenStream => @Err TokenStream TokenStream synerr) [] = Err synerr
  /\ attribute_macro (fun _ => Err synerr) parse_tokens [] true item body =
     Some (item ++ synerr ++ compile_error attr_note_text).
Proof.
  intros item synerr body. split; [reflexivity|].
  destruct C8_parse_failure as (_ & _ & Ha & _).
  apply (Ha TokenStream TokenStream (fun _ => Err synerr) parse_tokens [] true item body synerr).
  reflexivity.
Defined.

(** ** C10: the dummy is discarded on success *)

(** C10: when the handler's output normalizes to [Ok t], every entry
    point returns [t] and the emitter's undrained diagnostics, nothing of
    the dummy, whether it was seeded with the input or written by the
    body. *)
Theorem C10_success_discards_dummy :
  (forall (input : TokenStream) (flag : bool) (body : Handler TokenStream macro_output)
          o d em t,
     call body input (if flag then input else []) Emitter_new = (o, d, em) ->
     convert o = Ok t ->
     function input flag body = (let* r := Emitter_to_tokens em in ret (t ++ r)))
  /\ (forall (input item : TokenStream) (flag : bool)
             (body : Handler (TokenStream * TokenStream) macro_output) o d em t,
        call body (input, item) (if flag then item else []) Emitter_new = (o, d, em) ->
        convert o = Ok t ->
        attribute input item flag body = (let* r := Emitter_to_tokens em in ret (t ++ r)))
  /\ (forall (item : TokenStream) (body : Handler TokenStream macro_output) o d em t,
        call body item [] Emitter_new = (o, d, em) ->
        convert o = Ok t ->
        derive item body = (let* r := Emitter_to_tokens em in ret (t ++ r)))
  /\ (forall (I : Type) (parse : TokenStream -> result I TokenStream) (flag : bool)
             (input : TokenStream) (body : Handler I mac_output) (i : I) o d em t,
        parse input = Ok i ->
        call body i (if flag then input else []) Emitter_new = (o, d, em) ->
        manyhow_try o = Ok t ->
        function_macro parse flag input body =
        (let* r := Emitter_to_tokens em in ret (r ++ t)))
  /\ (forall (A B : Type) (parse_input : TokenStream -> result A TokenStream)
             (parse_item : TokenStream -> result B TokenStream) (input : TokenStream)
             (flag : bool) (item : TokenStream) (body : Handler (A * B) mac_output)
             (a : A) (b : B) o d em t,
        parse_input input = Ok a -> parse_item item = Ok b ->
        call body (a, b) (if flag then item else []) Emitter_new = (o, d, em) ->
        manyhow_try o = Ok t ->
        attribute_macro parse_input parse_item input flag item body =
        (let* r := Emitter_to_tokens em in ret (r ++ t)))
  /\ (forall (I : Type) (parse : TokenStream -> result I TokenStream)
             (item : TokenStream) (body : Handler I mac_output) (i : I) o d em t,
        parse item = Ok i ->
        call body i [] Emitter_new = (o, d, em) ->
        manyhow_try o = Ok t ->
        derive_macro parse item body = (let* r := Emitter_to_tokens em in ret (r ++ t))).
Proof.
  assert (Hp : forall o d t, convert o = Ok t -> primary_output o d = ret t).
  { intros o d t Ho. unfold primary_output. rewrite Ho. reflexivity. }
  assert (Hm : forall o d em t, manyhow_try o = Ok t ->
            macro_output_tokens o d em = (let* r := Emitter_to_tokens em in ret (r ++ t))).
  { intros o d em t Ho. unfold macro_output_tokens. rewrite Ho.
    destruct (Emitter_to_tokens em); reflexivity. }
  split; [|split; [|split; [|split; [|split]]]].
  - intros input flag body o d em t Hc Ho.
    rewrite (function_unfold _ _ _ _ _ _ Hc), (Hp _ _ _ Ho). reflexivity.
  - intros input item flag body o d em t Hc Ho.
    rewrite (attribute_unfold _ _ _ _ _ _ _ Hc), (Hp _ _ _ Ho). reflexivity.
  - intros item body o d em t Hc Ho.
    rewrite (derive_unfold _ _ _ _ _ Hc), (Hp _ _ _ Ho). reflexivity.
  - intros I parse flag input body i o d em t Hi Hc Ho.
    rewrite (function_macro_unfold _ _ _ _ _ _ _ _ Hi Hc). apply Hm, Ho.
  - intros A B parse_input parse_item input flag item body a b o d em t Ha Hb Hc Ho.
    rewrite (attribute_macro_unfold _ _ _ _ _ _ _ _ _ _ _ Ha Hb Hc). apply Hm, Ho.
  - intros I parse item body i o d em t Hi Hc Ho.
    rewrite (derive_macro_unfold _ _ _ _ _ _ _ Hi Hc). apply Hm, Ho.
Qed.

(** [attribute] with [item_as_dummy = true] and a body that writes the
    dummy and succeeds: only the output is returned. *)
Lemma C10_success_discards_dummy_witness :
  let body : Handler (TokenStream * TokenStream) macro_output :=
    WithDummy (fun '(_, it) _ => (Tokens (it ++ it), [Ident "dummy"])) in
  call body ([], struct_X) struct_X Emitter_new
    = (Tokens (struct_X ++ struct_X), [Ident "dummy"], [])
  /\ convert (Tokens (struct_X ++ struct_X)) = Ok (struct_X ++ struct_X)
  /\ attribute [] struct_X true body =
     (let* r := Emitter_to_tokens [] in ret ((struct_X ++ struct_X) ++ r)).
Proof.
  intros body. split; [reflexivity|]. split; [reflexivity|].
  destruct C10_success_discards_dummy as (_ & Ha & _).
  apply (Ha [] struct_X true body (Tokens (struct_X ++ struct_X)) [Ident "dummy"] []);
    reflexivity.
Defined.

(** * Further properties of the code *)

(** [Emitter::extend] (and so [emit!]) appends in order: the emitter
    renders its earlier diagnostics, then the new ones; [emit] is [extend]
    with one element. *)
Theorem Emitter_extend_renders (em : Emitter) (ds : list diag) (d : diag) :
  Emitter_to_tokens (Emitter_extend em ds) =
    (let* a := Emitter_to_tokens em in
     let* b := Emitter_to_tokens ds in
     ret (a ++ b))
  /\ emit em d = Emitter_extend em [d].
Proof.
  split; [|reflexivity].
  unfold Emitter_extend. rewrite !Emitter_to_tokens_Error. apply Error_to_tokens_app.
Qed.

(** [JoinToTokensError::join]: [a.join(b)] is the collection [[a, b]] and
    renders [a] then [b]; joining onto an [Error] nests it, with the same
    tokens as the flat collection. *)
Theorem join_renders (a b : diag) (es : Error) :
  join a b = [a; b]
  /\ Error_to_tokens (join a b) =
     (let* x := diag_to_tokens a in
      let* y := diag_to_tokens b in
      ret (x ++ y))
  /\ Error_to_tokens (join (DError es) b) = Error_to_tokens (es ++ [b]).
Proof.
  split; [reflexivity|]. split.
  - simpl. destruct (diag_to_tokens a); simpl; [|reflexivity].
    destruct (diag_to_tokens b); simpl; [rewrite app_nil_r|]; reflexivity.
  - unfold join, push, Error_from. simpl app.
    rewrite Error_to_tokens_app. cbn [Error_to_tokens].
    rewrite diag_to_tokens_DError.
    destruct (Error_to_tokens es); simpl; [|reflexivity].
    destruct (diag_to_tokens b); simpl; [rewrite !app_nil_r|]; reflexivity.
Qed.

(** Rendering an [ErrorMessage] panics exactly when one of its attachment
    texts is empty. *)
Theorem ErrorMessage_panics_iff (m : ErrorMessage) :
  ErrorMessage_to_string m = None <->
  Exists (fun a => snd a = EmptyString) (attachments m).
Proof.
  split.
  - intros Hn.
    destruct (Exists_dec (fun a => snd a = EmptyString) (attachments m))
      as [Hx|Hx]; [intros a; apply string_dec|exact Hx|].
    exfalso.
    apply Forall_Exists_neg in Hx.
    unfold ErrorMessage_to_string in Hn.
    rewrite (fmt_attachments_blocks _ Hx) in Hn. discriminate.
  - intros Hx. apply Exists_exists in Hx as ([label t] & Hin & Ht).
    simpl in Ht. subst t.
    unfold ErrorMessage_to_string.
    rewrite (fmt_attachments_empty_text _ _ Hin). reflexivity.
Qed.

Lemma ErrorMessage_panics_iff_witness :
  let m := note (ErrorMessage_call_site "m") "" in
  Exists (fun a => snd a = EmptyString) (attachments m)
  /\ ErrorMessage_to_string m = None.
Proof.
  intros m.
  assert (Hx : Exists (fun a => snd a = EmptyString) (attachments m))
    by (apply Exists_cons_hd; reflexivity).
  split; [exact Hx|]. apply (proj2 (ErrorMessage_panics_iff m) Hx).
Defined.

Lemma string_append_assoc (a b c : string) :
  (a ++ b ++ c)%string = ((a ++ b) ++ c)%string.
Proof. induction a as [|x a IH]; simpl; [|rewrite IH]; reflexivity. Qed.

Lemma string_append_empty (a : string) : (a ++ "")%string = a.
Proof. induction a as [|x a IH]; simpl; [|rewrite IH]; reflexivity. Qed.

Lemma concat_str_app (l1 l2 : list string) :
  concat_str (l1 ++ l2) = (concat_str l1 ++ concat_str l2)%string.
Proof.
  induction l1 as [|s l1 IH]; simpl; [reflexivity|].
  rewrite IH, string_append_assoc. reflexivity.
Qed.

(** [ErrorMessage::attachment] (and [ResultExt::attachment] on an [Err])
    adds one block at the end of the rendered text, after the blank line
    that starts the attachments; [ResultExt::attachment] leaves [Ok]
    alone. *)
Theorem attachment_appends_block {T} (m : ErrorMessage) (label text : string) (x : T) :
  Forall (fun a => snd a <> EmptyString) (attachments m) ->
  text <> EmptyString ->
  ErrorMessage_to_string (attachment m label text) =
    Some (trim_end (msg m) ++ nl ++ nl ++
          concat_str (map attachment_block (attachments m)) ++
          attachment_block (label, text))%string
  /\ result_attachment (@Err T ErrorMessage m) label text = Err (attachment m label text)
  /\ result_attachment (@Ok T ErrorMessage x) label text = Ok x.
Proof.
  intros Hf Ht. split; [|split; reflexivity].
  assert (Hf' : Forall (fun a => snd a <> EmptyString) (attachments (attachment m label text))).
  { simpl. apply Forall_app. split; [exact Hf|]. constructor; [exact Ht|constructor]. }
  unfold ErrorMessage_to_string. rewrite (fmt_attachments_blocks _ Hf').
  simpl attachments. rewrite map_app, concat_str_app. simpl concat_str.
  rewrite string_append_empty.
  destruct (attachments m); reflexivity.
Qed.

Lemma attachment_appends_block_witness :
  let m := help (ErrorMessage_call_site "m") "h" in
  Forall (fun a => snd a <> EmptyString) (attachments m)
  /\ "n" <> EmptyString
  /\ ErrorMessage_to_string (attachment m "note" "n") =
     Some (trim_end (msg m) ++ nl ++ nl ++
           concat_str (map attachment_block (attachments m)) ++
           attachment_block ("note", "n"))%string.
Proof.
  intros m.
  assert (Hf : Forall (fun a => snd a <> EmptyString) (attachments m))
    by (repeat constructor; discriminate).
  assert (Ht : "n" <> EmptyString) by discriminate.
  split; [exact Hf|]. split; [exact Ht|].
  apply (proj1 (@attachment_appends_block unit m "note" "n" tt Hf Ht)).
Defined.

Lemma list_ascii_of_string_app (a b : string) :
  list_ascii_of_string (a ++ b) = list_ascii_of_string a ++ list_ascii_of_string b.
Proof. induction a as [|c a IH]; simpl; [|rewrite IH]; reflexivity. Qed.

Lemma drop_ws_whitespace_char (e l : list ascii) :
  In e whitespace_utf8 -> drop_ws (rev e ++ l) = drop_ws l.
Proof.
  intros H. cbn [whitespace_utf8 In] in H.
  repeat (destruct H as [<-|H]; [reflexivity|]). contradiction.
Qed.

Lemma drop_ws_whitespace (ws : list (list ascii)) (l : list ascii) :
  Forall (fun e => In e whitespace_utf8) ws ->
  drop_ws (rev (List.concat ws) ++ l) = drop_ws l.
Proof.
  revert l. induction ws as [|e ws IH]; intros l Hws; [reflexivity|].
  inversion Hws as [|? ? He Hws']; subst.
  simpl List.concat. rewrite rev_app_distr, <- app_assoc, IH by exact Hws'.
  apply drop_ws_whitespace_char, He.
Qed.

(** Trailing whitespace of the message never reaches the output:
    [Display] renders [msg.trim_end()], which removes every trailing
    character with the [White_Space] property, ASCII or not. *)
Theorem trailing_whitespace_ignored (sp1 sp2 : Span) (s : string)
  (ws : list (list ascii)) (atts : list (string * string)) :
  Forall (fun e => In e whitespace_utf8) ws ->
  ErrorMessage_to_string
    (mkErrorMessage sp1 sp2 (s ++ string_of_list_ascii (List.concat ws)) atts) =
  ErrorMessage_to_string (mkErrorMessage sp1 sp2 s atts).
Proof.
  intros Hws. unfold ErrorMessage_to_string. simpl.
  assert (H : trim_end (s ++ string_of_list_ascii (List.concat ws)) = trim_end s).
  { unfold trim_end.
    rewrite list_ascii_of_string_app, list_ascii_of_string_of_list_ascii,
      rev_app_distr, drop_ws_whitespace by exact Hws.
    reflexivity. }
  rewrite H. reflexivity.
Qed.

(** A message ending in a space, a no-break space (U+00A0) and an
    ideographic space (U+3000). *)
Lemma trailing_whitespace_ignored_witness :
  let ws := [["032"]; ["194"; "160"]; ["227"; "128"; "128"]]%char in
  Forall (fun e => In e whitespace_utf8) ws
  /\ ErrorMessage_to_string
       (mkErrorMessage 1 2 ("oops" ++ string_of_list_ascii (List.concat ws)) [])%string =
     ErrorMessage_to_string (mkErrorMessage 1 2 "oops" []).
Proof.
  intros ws.
  assert (Hws : Forall (fun e => In e whitespace_utf8) ws).
  { repeat (apply Forall_cons;
      [cbn [whitespace_utf8 In]; repeat (first [left; reflexivity | right])|]).
    apply Forall_nil. }
  split; [exact Hws|].
  apply trailing_whitespace_ignored, Hws.
Defined.

(** The "check and bail" pattern [emitter.emit(d); emitter.into_result()?;
    Ok(input)] with the input as dummy: the diagnostic is reported once,
    after the input, through [function] and through [function!]. *)
Theorem emit_then_bail_reports_once (input : TokenStream) (d : diag) :
  function input true
    (WithEmitter (fun i em =>
       let '(r, em) := into_result (emit em d) in
       match r with
       | Ok _ => (ROk (Tokens i), em)
       | Err e => (RErr (DError e), em)
       end))
  = (let* t := diag_to_tokens d in ret (input ++ t))
  /\ function_macro parse_tokens true input
    (WithEmitter (fun i em =>
       let '(r, em) := into_result (emit em d) in
       match r with
       | Ok _ => (MResult (Ok i), em)
       | Err e => (MResult (Err (DError e)), em)
       end))
  = (let* t := diag_to_tokens d in ret (input ++ t)).
Proof.
  split.
  - unfold function, finish. simpl.
    destruct (diag_to_tokens d); simpl; [rewrite !app_nil_r|]; reflexivity.
  - unfold function_macro. simpl.
    destruct (diag_to_tokens d); simpl; [rewrite !app_nil_r|]; reflexivity.
Qed.

(** For a token-stream input, [function] and [function!] give the same
    output for bodies that return the same value and leave the same dummy,
    as long as no diagnostic is left in the emitter; they differ only in
    where the emitter's diagnostics go. *)
Theorem function_macro_agrees (input : TokenStream) (flag : bool)
  (bodyP : Handler TokenStream macro_output) (bodyM : Handler TokenStream mac_output)
  (o : mac_output) (d : TokenStream) :
  call bodyP input (if flag then input else []) Emitter_new =
    (mac_output_as_macro_output o, d, []) ->
  call bodyM input (if flag then input else []) Emitter_new = (o, d, []) ->
  function input flag bodyP = function_macro parse_tokens flag input bodyM.
Proof.
  intros HP HM.
  rewrite (function_unfold _ _ _ _ _ _ HP).
  rewrite (function_macro_unfold parse_tokens flag input bodyM input o d [] eq_refl HM).
  unfold primary_output, macro_output_tokens. simpl.
  destruct o as [t|[t|e]]; simpl; try (rewrite app_nil_r; reflexivity).
  destruct (diag_to_tokens e); simpl; [rewrite !app_nil_r|]; reflexivity.
Qed.

Lemma function_macro_agrees_witness :
  let e := msg_d "bad" in
  call (Plain (fun _ => RErr e)) struct_X struct_X Emitter_new =
    (mac_output_as_macro_output (MResult (Err e)), struct_X, [])
  /\ call (Plain (fun _ => MResult (Err e))) struct_X struct_X Emitter_new =
     (MResult (Err e), struct_X, [])
  /\ function struct_X true (Plain (fun _ => RErr e)) =
     function_macro parse_tokens true struct_X (Plain (fun _ => MResult (Err e))).
Proof.
  intros e. split; [reflexivity|]. split; [reflexivity|].
  apply (function_macro_agrees struct_X true _ _ (MResult (Err e)) struct_X);
    reflexivity.
Defined.

(** ** Span ranges *)

Lemma last_default {A} (x : A) (l : list A) (a b : A) :
  last (x :: l) a = last (x :: l) b.
Proof.
  revert x. induction l as [|y l IH]; intros x; [reflexivity|].
  change (last (y :: l) a = last (y :: l) b). apply IH.
Qed.

Lemma last_cons_self {A} (x : A) (l : list A) : last (x :: l) x = last l x.
Proof. destruct l; reflexivity. Qed.

Lemma last_opt_cons {A} (x : A) (l : list A) :
  last_opt (x :: l) = Some (last l x).
Proof.
  revert x. induction l as [|y l IH]; intros x; [reflexivity|].
  change (last_opt (y :: l) = Some (last (y :: l) x)).
  rewrite IH. destruct l as [|z l]; [reflexivity|].
  f_equal. change (last (z :: l) y = last (z :: l) x). apply last_default.
Qed.

Lemma last_app_cons {A} (l b : list A) (y d : A) :
  last (l ++ y :: b) d = last (y :: b) d.
Proof.
  induction l as [|z l IH]; [reflexivity|].
  simpl app. rewrite <- IH.
  destruct (l ++ y :: b) eqn:E; [destruct l; discriminate|reflexivity].
Qed.

Lemma span_range_tokens_cons (x : Span) (l : list Span) :
  span_range_tokens (x :: l) = (x, last l x).
Proof.
  unfold span_range_tokens. simpl tl.
  destruct l as [|y l]; [reflexivity|].
  rewrite last_opt_cons. f_equal.
  rewrite (last_default y l x y), last_cons_self. reflexivity.
Qed.

Lemma tuple_span_range_cons (x : Span) (a b : list Span) :
  tuple_span_range (x :: a) b = (x, last b x).
Proof.
  unfold tuple_span_range.
  destruct b as [|y b]; [reflexivity|].
  rewrite last_opt_cons. f_equal.
  rewrite (last_default y b x y), last_cons_self. reflexivity.
Qed.

(** The range of a pair of token streams ([ToTokensTupleToSpanRange])
    agrees with the range of their concatenation and with [SpanRanged]'s
    pair of ranges when both are non-empty; with an empty second stream it
    collapses to the first token's span. *)
Theorem tuple_span_range_spec (a b : list Span) :
  a <> [] ->
  (b <> [] ->
     tuple_span_range a b = to_tokens_span_range (a ++ b)
     /\ tuple_span_range a b =
        span_range_pair (to_tokens_span_range a) (to_tokens_span_range b))
  /\ tuple_span_range a [] = span_range_span (fst (to_tokens_span_range a)).
Proof.
  intros Ha.
  destruct a as [|x a]; [contradiction|].
  split; [|reflexivity].
  intros Hb. destruct b as [|y b]; [contradiction|].
  unfold to_tokens_span_range, span_range_pair.
  rewrite tuple_span_range_cons, <- app_comm_cons, !span_range_tokens_cons.
  rewrite last_app_cons. split; [reflexivity|]. simpl fst; simpl snd. f_equal.
  rewrite (last_default y b x y), last_cons_self. reflexivity.
Qed.

Lemma tuple_span_range_spec_witness :
  [1; 2] <> [] /\ [3; 4] <> ([] : list Span)
  /\ tuple_span_range [1; 2] [3; 4] = to_tokens_span_range ([1; 2] ++ [3; 4]).
Proof.
  assert (Ha : [1; 2] <> ([] : list Span)) by discriminate.
  assert (Hb : [3; 4] <> ([] : list Span)) by discriminate.
  split; [exact Ha|]. split; [exact Hb|].
  apply (proj1 (proj1 (tuple_span_range_spec [1; 2] [3; 4] Ha) Hb)).
Defined.

